(** * Chain-Guard ledger engine: Merkle commitments, block linkage, revocation

    A shallow embedding of [services/blockchain.ts], of the two functions
    of [services/crypto.ts] that are not elliptic-curve calls ([hashData],
    [createTransactionId]), of [buildTree] of [components/MerkleTreeViz.tsx]
    and of [handleVerifyTransaction] of [App.tsx], with the properties of
    the ledger stated and proved over that embedding.

    Conventions of the embedding:
    - a TypeScript [string] is a [string] of bytes (its UTF-8 text), [+] on
      strings is [String.append], [===] on strings is [String.eqb];
    - the integer-valued [number]s of a header ([index], [timestamp],
      [nonce]) are in [Z], and a template literal prints them in decimal;
    - [Date.now()] and [Math.random()] are inputs of the operation that
      reads them;
    - [Set<string>] is a [gset string];
    - the two [while] loops, whose level halves at each turn, are defined by
      well-founded recursion on the length of the level. *)

From Stdlib Require Import ZArith List Lia ZifyNat Ascii String DecimalString.
From stdpp Require Import base gmap sets list strings.
From Equations Require Import Equations.
Import ListNotations.

Local Open Scope string_scope.
Local Open Scope Z_scope.
Local Open Scope list_scope.

(** ** SHA-256 (FIPS 180-4), the digest behind [hashData]

    [crypto-js/sha256] is a dependency of the repository, not part of it;
    the digest is written out here so that [hashData] evaluates on concrete
    strings. Words are 32-bit, kept in [Z] and reduced modulo [2^32]. *)
Module SHA256.

Definition w32 (x : Z) : Z := x mod 4294967296.

Definition add32 (x y : Z) : Z := w32 (x + y).

Definition rotr (n x : Z) : Z :=
  w32 (Z.lor (Z.shiftr x n) (Z.shiftl x (32 - n))).

Definition Ch (x y z : Z) : Z :=
  Z.lxor (Z.land x y) (Z.land (w32 (Z.lnot x)) z).

Definition Maj (x y z : Z) : Z :=
  Z.lxor (Z.lxor (Z.land x y) (Z.land x z)) (Z.land y z).

Definition Sigma0 (x : Z) : Z :=
  Z.lxor (Z.lxor (rotr 2 x) (rotr 13 x)) (rotr 22 x).

Definition Sigma1 (x : Z) : Z :=
  Z.lxor (Z.lxor (rotr 6 x) (rotr 11 x)) (rotr 25 x).

Definition sigma0 (x : Z) : Z :=
  Z.lxor (Z.lxor (rotr 7 x) (rotr 18 x)) (Z.shiftr x 3).

Definition sigma1 (x : Z) : Z :=
  Z.lxor (Z.lxor (rotr 17 x) (rotr 19 x)) (Z.shiftr x 10).

(** The first sixty-four primes. *)
Definition primes : list Z :=
  [ 2; 3; 5; 7; 11; 13; 17; 19; 23; 29; 31; 37; 41; 43; 47; 53;
    59; 61; 67; 71; 73; 79; 83; 89; 97; 101; 103; 107; 109; 113; 127; 131;
    137; 139; 149; 151; 157; 163; 167; 173; 179; 181; 191; 193; 197; 199;
    211; 223; 227; 229; 233; 239; 241; 251; 257; 263; 269; 271; 277; 281;
    283; 293; 307; 311 ].

(** The integer cube root below [2^bits], found bit by bit from the top. *)
Fixpoint cbrt_bits (bits : nat) (n r : Z) : Z :=
  match bits with
  | O => r
  | S b =>
      let c := r + 2 ^ Z.of_nat b in
      if c * c * c <=? n then cbrt_bits b n c else cbrt_bits b n r
  end.

(** The first 32 bits of the fractional part of the cube root of [p]. *)
Definition cbrt_fraction (p : Z) : Z := w32 (cbrt_bits 36 (p * 2 ^ 96) 0).

(** The first 32 bits of the fractional part of the square root of [p]. *)
Definition sqrt_fraction (p : Z) : Z := w32 (Z.sqrt (p * 2 ^ 64)).

(** The round constants: cube roots of the first sixty-four primes. *)
Definition K : list Z := Eval vm_compute in map cbrt_fraction primes.

(** The initial hash value: square roots of the first eight primes. *)
Definition H0 : list Z := Eval vm_compute in map sqrt_fraction (firstn 8 primes).

(** The eight working variables [a .. h]. *)
Record regs : Type := Regs {
  ra : Z; rb : Z; rc : Z; rd : Z; re : Z; rf : Z; rg : Z; rh : Z
}.

Definition regs_of_list (l : list Z) : regs :=
  Regs (nth 0 l 0) (nth 1 l 0) (nth 2 l 0) (nth 3 l 0)
       (nth 4 l 0) (nth 5 l 0) (nth 6 l 0) (nth 7 l 0).

Definition list_of_regs (r : regs) : list Z :=
  [ra r; rb r; rc r; rd r; re r; rf r; rg r; rh r].

Definition round (r : regs) (k w : Z) : regs :=
  let t1 := add32 (add32 (add32 (add32 (rh r) (Sigma1 (re r)))
                                 (Ch (re r) (rf r) (rg r))) k) w in
  let t2 := add32 (Sigma0 (ra r)) (Maj (ra r) (rb r) (rc r)) in
  Regs (add32 t1 t2) (ra r) (rb r) (rc r) (add32 (rd r) t1) (re r) (rf r) (rg r).

(** The message schedule as a sliding window of sixteen words: the head is
    [W_t], and the word pushed at the back is [W_(t+16)]. *)
Definition slide (win : list Z) : list Z :=
  let w16 := add32 (add32 (add32 (sigma1 (nth 14 win 0)) (nth 9 win 0))
                          (sigma0 (nth 1 win 0))) (nth 0 win 0) in
  tl win ++ [w16].

Fixpoint rounds (ks : list Z) (win : list Z) (r : regs) : regs :=
  match ks with
  | [] => r
  | k :: ks' => rounds ks' (slide win) (round r k (nth 0 win 0))
  end.

Definition compress (h : list Z) (block : list Z) : list Z :=
  let r := rounds K block (regs_of_list h) in
  map (fun p => add32 (fst p) (snd p)) (combine h (list_of_regs r)).

(** Big-endian packing of bytes into 32-bit words. *)
Fixpoint words_of_bytes (bs : list Z) : list Z :=
  match bs with
  | b0 :: b1 :: b2 :: b3 :: rest =>
      (b0 * 16777216 + b1 * 65536 + b2 * 256 + b3) :: words_of_bytes rest
  | _ => []
  end.

Definition be64 (n : Z) : list Z :=
  map (fun i => Z.shiftr n (8 * i) mod 256) [7; 6; 5; 4; 3; 2; 1; 0].

Definition pad (msg : list Z) : list Z :=
  let len := Z.of_nat (List.length msg) in
  let zeros := Z.to_nat ((55 - len) mod 64) in
  msg ++ [128] ++ repeat 0 zeros ++ be64 (8 * len).

Fixpoint blocks (n : nat) (ws : list Z) (h : list Z) : list Z :=
  match n with
  | O => h
  | S n' => blocks n' (skipn 16 ws) (compress h (firstn 16 ws))
  end.

Definition digest (msg : list Z) : list Z :=
  let ws := words_of_bytes (pad msg) in
  blocks (Nat.div (List.length ws) 16) ws H0.

Definition hex_digit (d : Z) : ascii :=
  nth (Z.to_nat d)
      (list_ascii_of_string "0123456789abcdef") "0"%char.

Definition hex_of_word (w : Z) : list ascii :=
  map (fun i => hex_digit (Z.shiftr w (4 * i) mod 16)) [7; 6; 5; 4; 3; 2; 1; 0].

Definition bytes_of_string (s : string) : list Z :=
  map (fun c => Z.of_N (N_of_ascii c)) (list_ascii_of_string s).

(** The lower-case hexadecimal digest, as [SHA256(data).toString()] prints it. *)
Definition hex (s : string) : string :=
  string_of_list_ascii (concat (map hex_of_word (digest (bytes_of_string s)))).

End SHA256.

(** ** Data model ([types.ts]) *)

Record Transaction : Type := {
  id : string;
  productName : string;
  details : string;
  tx_timestamp : Z;
  signerPublicKey : string;
  signature : string;
  valid : option bool
}.

Record BlockHeader : Type := {
  index : Z;
  previousHash : string;
  timestamp : Z;
  merkleRoot : string;
  nonce : Z
}.

Record Block : Type := {
  header : BlockHeader;
  transactions : list Transaction;
  hash : string
}.

(** ** [services/crypto.ts] *)

Definition hashData (data : string) : string := SHA256.hex data.

(** How a template literal prints an integer-valued number. *)
Definition showNumber (n : Z) : string := NilZero.string_of_int (Z.to_int n).

(** ** Merkle tree ([services/blockchain.ts]) *)

Inductive Position : Type := PosLeft | PosRight.

Record MerkleProofStep : Type := {
  step_hash : string;
  position : Position
}.

(** The inner [for (let i = 0; i < hashes.length; i += 2)] loop, which both
    [getMerkleRoot] and [getMerkleProof] run on the current level. *)
Fixpoint nextLevel (hashes : list string) : list string :=
  match hashes with
  | [] => []
  | [a] => [hashData (a +:+ a)]
  | a :: b :: rest => hashData (a +:+ b) :: nextLevel rest
  end.

Lemma list_pair_ind {A} (P : list A → Prop) :
  P [] → (∀ a, P [a]) → (∀ a b l, P l → P (a :: b :: l)) → ∀ l, P l.
Proof.
  intros Hnil Hone Hstep l.
  enough (P l ∧ ∀ a, P (a :: l)) as [? _] by assumption.
  induction l as [|x l [IH1 IH2]]; split; auto.
Qed.

Lemma nextLevel_length (hashes : list string) :
  length (nextLevel hashes) = Nat.div2 (S (length hashes)).
Proof.
  induction hashes as [|a|a b l IH] using list_pair_ind; simpl; auto.
Qed.

Lemma nextLevel_shorter (a b : string) (rest : list string) :
  (length (nextLevel (a :: b :: rest)) < length (a :: b :: rest))%nat.
Proof.
  rewrite nextLevel_length. cbn [length].
  generalize (length rest) as n. intros n.
  change (Nat.div2 (S (S (S n)))) with (S (Nat.div2 (S n))).
  pose proof (Nat.le_div2 n). lia.
Qed.

(** [while (hashes.length > 1) { ...; hashes = nextLevel; }] of
    [getMerkleRoot]: the level on which the loop stops. *)
Equations reduceLevels (hashes : list string) : list string
  by wf (length hashes) lt :=
  reduceLevels [] := [];
  reduceLevels [a] := [a];
  reduceLevels (a :: b :: rest) := reduceLevels (nextLevel (a :: b :: rest)).
Next Obligation. apply (nextLevel_shorter a b rest). Qed.

Definition getMerkleRoot (transactions : list Transaction) : string :=
  if Nat.eqb (length transactions) 0 then hashData ""
  else
    let hashes := map id transactions in
    nth 0 (reduceLevels hashes) "".

(** [hashes.findIndex(h => h === targetTxId)], with [None] for [-1]. *)
Fixpoint findIndex (hashes : list string) (targetTxId : string) : option nat :=
  match hashes with
  | [] => None
  | h :: rest =>
      if String.eqb h targetTxId then Some O
      else option_map S (findIndex rest targetTxId)
  end.

(** The step pushed on [proof] at the current level. Each of the three
    reads is inside the array when [index < hashes.length]. *)
Definition siblingStep (hashes : list string) (index : nat) : MerkleProofStep :=
  if Nat.eqb (index mod 2) 0 then
    if Nat.ltb (index + 1) (length hashes) then
      {| step_hash := nth (index + 1) hashes ""; position := PosRight |}
    else
      {| step_hash := nth index hashes ""; position := PosRight |}
  else
    {| step_hash := nth (index - 1) hashes ""; position := PosLeft |}.

(** [while (hashes.length > 1) { ... }] of [getMerkleProof], on the loop
    state [(hashes, index, proof)]. *)
Equations proofLoop (hashes : list string) (index : nat)
    (proof : list MerkleProofStep) : list MerkleProofStep
  by wf (length hashes) lt :=
  proofLoop [] index proof := proof;
  proofLoop [a] index proof := proof;
  proofLoop (a :: b :: rest) index proof :=
    proofLoop (nextLevel (a :: b :: rest)) (index / 2)
              (proof ++ [siblingStep (a :: b :: rest) index]).
Next Obligation. apply (nextLevel_shorter a b rest). Qed.

Definition getMerkleProof (transactions : list Transaction)
    (targetTxId : string) : list MerkleProofStep :=
  let hashes := map id transactions in
  match findIndex hashes targetTxId with
  | None => []
  | Some index => proofLoop hashes index []
  end.

(** One turn of the [for (const step of proof)] loop. *)
Definition foldStep (currentHash : string) (step : MerkleProofStep) : string :=
  match position step with
  | PosRight => hashData (currentHash +:+ step_hash step)
  | PosLeft => hashData (step_hash step +:+ currentHash)
  end.

Definition verifyMerkleProof (leafHash : string)
    (proof : list MerkleProofStep) (root : string) : bool :=
  let currentHash := fold_left foldStep proof leafHash in
  String.eqb currentHash root.

(** ** The ledger ([class Blockchain]) *)

Record Blockchain : Type := {
  chain : list Block;
  pendingTransactions : list Transaction;
  revokedKeys : gset string
}.

(** [now] is the value [Date.now()] returns. *)
Definition createGenesisBlock (now : Z) : Block :=
  let timestamp := now in
  {| header := {| index := 0;
                  previousHash := "0";
                  timestamp := timestamp;
                  merkleRoot := hashData "Genesis Block";
                  nonce := 0 |};
     transactions := [];
     hash := hashData ("00" +:+ showNumber timestamp +:+
                       hashData "Genesis Block" +:+ "0") |}.

Definition newBlockchain (now : Z) : Blockchain :=
  {| chain := [createGenesisBlock now];
     pendingTransactions := [];
     revokedKeys := ∅ |}.

(** [this.chain[this.chain.length - 1]]; [None] is [undefined]. *)
Definition getLatestBlock (bc : Blockchain) : option Block :=
  chain bc !! (length (chain bc) - 1)%nat.

(** The result and the ledger after the call. *)
Definition addTransaction (tx : Transaction) (bc : Blockchain)
    : bool * Blockchain :=
  if bool_decide (signerPublicKey tx ∈ revokedKeys bc) then (false, bc)
  else
    (true, {| chain := chain bc;
              pendingTransactions := pendingTransactions bc ++ [tx];
              revokedKeys := revokedKeys bc |}).

Definition calculateBlockHash (block : Block) : string :=
  let h := header block in
  hashData (showNumber (index h) +:+ previousHash h +:+
            showNumber (timestamp h) +:+ merkleRoot h +:+
            showNumber (nonce h)).

(** [now] is the value of [Date.now()] and [pick] that of
    [Math.floor(Math.random() * 100000)]. The result is [None] when
    reading [previousBlock.hash] throws, which it does on an empty chain,
    before anything is written. *)
Definition minePendingTransactions (now pick : Z) (bc : Blockchain)
    : option (Block * Blockchain) :=
  match getLatestBlock bc with
  | None => None
  | Some previousBlock =>
      let txs := pendingTransactions bc in
      let root := getMerkleRoot txs in
      let hdr := {| index := Z.of_nat (length (chain bc));
                    previousHash := hash previousBlock;
                    timestamp := now;
                    merkleRoot := root;
                    nonce := pick |} in
      let block := {| header := hdr; transactions := txs; hash := "" |} in
      (* block.hash = this.calculateBlockHash(block) *)
      let block := {| header := hdr; transactions := txs;
                      hash := calculateBlockHash block |} in
      Some (block, {| chain := chain bc ++ [block];
                      pendingTransactions := [];
                      revokedKeys := revokedKeys bc |})
  end.

(** The body of the loop of [isChainValid] at [i]: [false] when one of its
    three [return false] is taken. Both reads are inside the array for
    [1 <= i < chain.length]. *)
Definition blockChecks (chain : list Block) (i : nat) : bool :=
  match chain !! i, chain !! (i - 1)%nat with
  | Some current, Some previous =>
      if negb (String.eqb (hash current) (calculateBlockHash current))
      then false
      else if negb (String.eqb (previousHash (header current)) (hash previous))
      then false
      else if negb (String.eqb (merkleRoot (header current))
                               (getMerkleRoot (transactions current)))
      then false
      else true
  | _, _ => false
  end.

(** [for (let i = ...; i < this.chain.length; i++)], with [count] turns left. *)
Fixpoint validLoop (chain : list Block) (i count : nat) : bool :=
  match count with
  | O => true
  | S count' =>
      if blockChecks chain i then validLoop chain (S i) count' else false
  end.

Definition isChainValid (bc : Blockchain) : bool :=
  validLoop (chain bc) 1 (length (chain bc) - 1).

Definition revokeKey (publicKey : string) (bc : Blockchain) : Blockchain :=
  {| chain := chain bc;
     pendingTransactions := pendingTransactions bc;
     revokedKeys := {[ publicKey ]} ∪ revokedKeys bc |}.

(** ** Ledgers reachable through the class's operations *)

Inductive Call : Type :=
| CallAddTransaction (tx : Transaction)
| CallMine (now pick : Z)
| CallRevokeKey (publicKey : string).

Definition perform (bc : Blockchain) (c : Call) : Blockchain :=
  match c with
  | CallAddTransaction tx => snd (addTransaction tx bc)
  | CallMine now pick =>
      match minePendingTransactions now pick bc with
      | Some (_, bc') => bc'
      | None => bc
      end
  | CallRevokeKey k => revokeKey k bc
  end.

(** The ledger after [new Blockchain()] at time [now] and then [calls]. *)
Definition run (now : Z) (calls : list Call) : Blockchain :=
  fold_left perform calls (newBlockchain now).

Definition reachable (bc : Blockchain) : Prop :=
  ∃ now calls, bc = run now calls.

(** ** The rest of [services/blockchain.ts], and what calls it *)

(** [while (currentLevel.length > 1) { ...; levels.push(currentLevel); }] of
    [buildMerkleTreeData], on the loop state [(currentLevel, levels)]. *)
Equations levelsLoop (currentLevel : list string) (levels : list (list string))
    : list (list string)
  by wf (length currentLevel) lt :=
  levelsLoop [] levels := levels;
  levelsLoop [a] levels := levels;
  levelsLoop (a :: b :: rest) levels :=
    levelsLoop (nextLevel (a :: b :: rest))
               (levels ++ [nextLevel (a :: b :: rest)]).
Next Obligation. apply (nextLevel_shorter a b rest). Qed.

(** [None] is [null]. What follows the loop in the source ([rootHash],
    [buildNode]) is not used by the value returned, [levels]. *)
Definition buildMerkleTreeData (transactions : list Transaction)
    : option (list (list string)) :=
  if Nat.eqb (length transactions) 0 then None
  else
    let currentLevel := map id transactions in
    Some (levelsLoop currentLevel [currentLevel]).

(** [services/crypto.ts]: the identifier of a transaction. *)
Definition createTransactionId (productName details : string) (timestamp : Z)
    : string :=
  hashData (productName +:+ ":" +:+ details +:+ ":" +:+ showNumber timestamp).

(** [App.tsx]: what [handleVerifyTransaction] stores as the verification
    shown to the auditor. *)
Record VerificationData : Type := {
  vd_txId : string;
  vd_proof : list MerkleProofStep;
  vd_valid : bool
}.

Definition handleVerifyTransaction (tx : Transaction)
    (blockTxs : list Transaction) (blockRoot : string) : VerificationData :=
  let proof := getMerkleProof blockTxs (id tx) in
  let isValid := verifyMerkleProof (id tx) proof blockRoot in
  {| vd_txId := id tx; vd_proof := proof; vd_valid := isValid |}.

(** ** [components/MerkleTreeViz.tsx]: the tree handed to the drawing *)

#[local] Unset Elimination Schemes.
Inductive D3Node : Type :=
| MkD3Node (name fullHash : string) (children : list D3Node).
#[local] Set Elimination Schemes.

Definition name (n : D3Node) : string :=
  match n with MkD3Node nm _ _ => nm end.

Definition fullHash (n : D3Node) : string :=
  match n with MkD3Node _ h _ => h end.

Definition children (n : D3Node) : list D3Node :=
  match n with MkD3Node _ _ cs => cs end.

(** [s.substring(0, 6) + '...'] *)
Definition shortName (s : string) : string := substring 0 6 s +:+ "...".

(** The inner [for] loop of [buildTree]. With no element at [i + 1],
    [right] is the object [left] itself and [left === right] holds; two
    elements of a level are never the same object. *)
Fixpoint nextLevelNodes (currentLevel : list D3Node) : list D3Node :=
  match currentLevel with
  | [] => []
  | [l] =>
      let combinedHash := hashData (fullHash l +:+ fullHash l) in
      [MkD3Node (shortName combinedHash) combinedHash [l]]
  | l :: r :: rest =>
      let combinedHash := hashData (fullHash l +:+ fullHash r) in
      MkD3Node (shortName combinedHash) combinedHash [l; r]
      :: nextLevelNodes rest
  end.

Lemma nextLevelNodes_shorter (l r : D3Node) (rest : list D3Node) :
  (length (nextLevelNodes (l :: r :: rest)) < length (l :: r :: rest))%nat.
Proof.
  cbn [nextLevelNodes length]. apply -> Nat.succ_lt_mono.
  induction rest as [|a|a b rest IH] using list_pair_ind; cbn [nextLevelNodes length];
    lia.
Qed.

Equations treeLoop (currentLevel : list D3Node) : list D3Node
  by wf (length currentLevel) lt :=
  treeLoop [] := [];
  treeLoop [l] := [l];
  treeLoop (l :: r :: rest) := treeLoop (nextLevelNodes (l :: r :: rest)).
Next Obligation. apply (nextLevelNodes_shorter l r rest). Qed.

(** [None] is [null]. *)
Definition buildTree (txs : list Transaction) : option D3Node :=
  if Nat.eqb (length txs) 0 then None
  else
    let leaves :=
      map (fun tx => MkD3Node (shortName (id tx)) (id tx) []) txs in
    head (treeLoop leaves).

(** The transactions drawn under a node: those of its leaves, left to
    right. *)
Fixpoint leafHashes (n : D3Node) : list string :=
  match n with
  | MkD3Node _ h [] => [h]
  | MkD3Node _ _ cs => flat_map leafHashes cs
  end.

(** ** Bookkeeping for the statements *)

(** The transactions a sequence of calls gets into the ledger, in order:
    those added while their signer was not revoked. *)
Fixpoint acceptedTransactions (revoked : gset string) (calls : list Call)
    : list Transaction :=
  match calls with
  | [] => []
  | CallAddTransaction tx :: calls' =>
      if bool_decide (signerPublicKey tx ∈ revoked)
      then acceptedTransactions revoked calls'
      else tx :: acceptedTransactions revoked calls'
  | CallMine _ _ :: calls' => acceptedTransactions revoked calls'
  | CallRevokeKey k :: calls' => acceptedTransactions ({[ k ]} ∪ revoked) calls'
  end.

(** The block [b] with the [details] of each of its transactions
    overwritten by [d], and nothing else touched. *)
Definition overwriteDetails (d : string) (b : Block) : Block :=
  {| header := header b;
     transactions :=
       map (fun tx =>
              {| id := id tx; productName := productName tx; details := d;
                 tx_timestamp := tx_timestamp tx;
                 signerPublicKey := signerPublicKey tx;
                 signature := signature tx; valid := valid tx |})
           (transactions b);
     hash := hash b |}.

Definition isMine (c : Call) : bool :=
  match c with CallMine _ _ => true | _ => false end.

(** Every transaction the ledger holds: those of its blocks, then the pool. *)
Definition ledgerTransactions (bc : Blockchain) : list Transaction :=
  concat (map transactions (chain bc)) ++ pendingTransactions bc.

(** Two blocks that differ, if at all, in fields of their transactions
    other than [id]. *)
Definition sameCommitment (b b' : Block) : Prop :=
  header b = header b' ∧ hash b = hash b'
  ∧ map id (transactions b) = map id (transactions b').

(** A transaction for the concrete instances below. *)
Definition sampleTx (txId signer : string) : Transaction :=
  {| id := txId;
     productName := "Coffee";
     details := "Carbon Footprint: 5kg";
     tx_timestamp := 1700000000000;
     signerPublicKey := signer;
     signature := "3045";
     valid := None |}.

(** No proof of a general property looks inside the digest. *)
Arguments hashData : simpl never.
Arguments showNumber : simpl never.
Opaque hashData.

(** [lia] is to know [/ 2] and [mod 2], which the loops use on indices. *)
#[local] Ltac Zify.zify_post_hook ::= Z.to_euclidean_division_equations.

(** * Properties *)

(** ** The digest on the test vectors of the standard *)

Example sha256_constants :
  nth 0 SHA256.K 0 = 0x428a2f98 ∧ nth 63 SHA256.K 0 = 0xc67178f2
  ∧ nth 0 SHA256.H0 0 = 0x6a09e667 ∧ nth 7 SHA256.H0 0 = 0x5be0cd19.
Proof. now vm_compute. Qed.

Example sha256_of_empty :
  SHA256.hex ""
  = "e3b0c44298fc1c149afbf4c8996fb92427ae41e4649b934ca495991b7852b855".
Proof. now vm_compute. Qed.

Example sha256_of_abc :
  SHA256.hex "abc"
  = "ba7816bf8f01cfea414140de5dae2223b00361a396177a9cb410ff61f20015ad".
Proof. now vm_compute. Qed.

Example sha256_of_two_blocks :
  SHA256.hex "abcdbcdecdefdefgefghfghighijhijkijkljklmklmnlmnomnopnopq"
  = "248d6a61d20638b8e5c026930c3e6039a33ce45964ff2167f6ecedd419db06c1".
Proof. now vm_compute. Qed.

Example showNumber_examples :
  showNumber 0 = "0" ∧ showNumber 1700000000000 = "1700000000000"
  ∧ showNumber (-12) = "-12".
Proof. now vm_compute. Qed.

(** ** The Merkle engine *)

Section Merkle.

Implicit Types (hashes : list string) (i : nat).
Local Open Scope nat_scope.

Lemma nextLevel_nonempty hashes : hashes ≠ [] → nextLevel hashes ≠ [].
Proof. destruct hashes as [|a [|b rest]]; simpl; congruence. Qed.

(** Induction along the levels the two [while] loops go through. *)
Lemma levels_ind (P : list string → Prop) :
  P [] → (∀ a, P [a]) →
  (∀ a b rest, P (nextLevel (a :: b :: rest)) → P (a :: b :: rest)) →
  ∀ hashes, P hashes.
Proof.
  intros Hnil Hone Hstep hashes.
  remember (length hashes) as n eqn:E. revert hashes E.
  induction n as [n IH] using lt_wf_ind. intros hashes E.
  destruct hashes as [|a [|b rest]]; auto.
  apply Hstep, (IH (length (nextLevel (a :: b :: rest)))); [|reflexivity].
  subst n. apply nextLevel_shorter.
Qed.

(** The loop of [getMerkleRoot] stops on a level of exactly one hash, so
    the read [hashes[0]] that follows it is inside the array. *)
Lemma reduceLevels_singleton hashes :
  hashes ≠ [] → ∃ root, reduceLevels hashes = [root].
Proof.
  induction hashes as [|a|a b rest IH] using levels_ind; intros Hne.
  - congruence.
  - exists a. now simp reduceLevels.
  - simp reduceLevels. apply IH, nextLevel_nonempty. discriminate.
Qed.

(** Steps pushed before a turn of the loop of [getMerkleProof] stay in
    front of those pushed from it on. *)
Lemma proofLoop_acc hashes i (proof : list MerkleProofStep) :
  proofLoop hashes i proof = proof ++ proofLoop hashes i [].
Proof.
  revert i proof.
  induction hashes as [|a|a b rest IH] using levels_ind; intros i proof;
    simp proofLoop; try (now rewrite app_nil_r).
  rewrite IH, (IH _ ([] ++ _)). now rewrite <- app_assoc.
Qed.

Lemma siblingStep_skip a b rest i :
  siblingStep (a :: b :: rest) (S (S i)) = siblingStep rest i.
Proof.
  unfold siblingStep. cbn [length].
  replace (S (S i) mod 2) with (i mod 2) by lia.
  destruct (Nat.eqb_spec (i mod 2) 0) as [Hev|Hodd].
  - replace (S (S i) + 1 <? S (S (length rest)))%nat
      with (i + 1 <? length rest)%nat
      by (destruct (Nat.ltb_spec (i + 1) (length rest));
          destruct (Nat.ltb_spec (S (S i) + 1) (S (S (length rest)))); lia).
    reflexivity.
  - destruct i as [|i]; [simpl in Hodd; congruence|].
    replace (S (S (S i)) - 1) with (S (S i)) by lia.
    replace (S i - 1) with i by lia. reflexivity.
Qed.

(** Folding the recorded sibling into the node at [i] gives its parent,
    the node at [i / 2] of the next level. *)
Lemma foldStep_sibling hashes i :
  i < length hashes →
  foldStep (nth i hashes "") (siblingStep hashes i)
  = nth (i / 2) (nextLevel hashes) "".
Proof.
  revert i.
  induction hashes as [|a|a b rest IH] using list_pair_ind; intros i Hi.
  - simpl in Hi. lia.
  - simpl in Hi. assert (i = 0) as -> by lia. reflexivity.
  - destruct i as [|[|i]]; [reflexivity | reflexivity |].
    rewrite siblingStep_skip.
    replace (S (S i) / 2) with (S (i / 2)) by lia.
    cbn [nextLevel nth]. apply IH. simpl in Hi. lia.
Qed.

(** The loop invariant of [getMerkleProof]: from the node at [i] of a
    level, the steps recorded from that level on fold to the root. *)
Lemma proofLoop_folds_to_root hashes i :
  i < length hashes →
  fold_left foldStep (proofLoop hashes i []) (nth i hashes "")
  = nth 0 (reduceLevels hashes) "".
Proof.
  revert i.
  induction hashes as [|a|a b rest IH] using levels_ind; intros i Hi.
  - simpl in Hi. lia.
  - simpl in Hi. assert (i = 0) as -> by lia.
    now simp proofLoop reduceLevels.
  - simp proofLoop reduceLevels.
    rewrite proofLoop_acc, fold_left_app. cbn [app fold_left].
    rewrite foldStep_sibling by exact Hi.
    apply IH. rewrite nextLevel_length, Nat.div2_div.
    cbn [length] in *. lia.
Qed.

Lemma findIndex_Some hashes (target : string) i :
  findIndex hashes target = Some i →
  i < length hashes ∧ nth i hashes "" = target.
Proof.
  revert i. induction hashes as [|h rest IH]; intros i; simpl.
  - discriminate.
  - destruct (String.eqb_spec h target) as [->|Hne].
    + intros [= <-]. split; [lia | reflexivity].
    + destruct (findIndex rest target) as [j|]; simpl; [|discriminate].
      intros [= <-]. destruct (IH j eq_refl). split; [lia | assumption].
Qed.

Lemma findIndex_None hashes (target : string) :
  findIndex hashes target = None ↔ target ∉ hashes.
Proof.
  induction hashes as [|h rest IH]; simpl.
  - split; [intros _; apply not_elem_of_nil | reflexivity].
  - rewrite not_elem_of_cons. destruct (String.eqb_spec h target) as [->|Hne].
    + split; [discriminate | intros [? _]; congruence].
    + destruct (findIndex rest target); simpl in *.
      * split; [discriminate|]. intros [_ H]. now apply IH in H.
      * split; [intros _; split; [congruence | now apply IH] | reflexivity].
Qed.

(** The read [hashes[0]] after the loop of [getMerkleRoot], on a non-empty
    sequence, is the one hash of the last level. *)
Lemma getMerkleRoot_last_level (txs : list Transaction) :
  txs ≠ [] → reduceLevels (map id txs) = [getMerkleRoot txs].
Proof.
  intros Hne. unfold getMerkleRoot.
  destruct txs as [|t txs]; [congruence|]. cbn [length Nat.eqb].
  destruct (reduceLevels_singleton (map id (t :: txs))) as [r Hr];
    [discriminate|].
  cbn zeta. now rewrite Hr.
Qed.

(** C1. For every sequence of transactions and every transaction [t] in it,
    the proof built for [t.id] verifies against the root of the sequence:
    [verifyMerkleProof(t.id, getMerkleProof(seq, t.id), getMerkleRoot(seq))]
    is [true]. *)
Theorem proof_of_member_verifies (seq : list Transaction) (t : Transaction) :
  t ∈ seq →
  verifyMerkleProof (id t) (getMerkleProof seq (id t)) (getMerkleRoot seq)
  = true.
Proof.
  intros Hin.
  assert (Hne : seq ≠ []) by (intros ->; now apply elem_of_nil in Hin).
  assert (Hid : id t ∈ map id seq) by (apply list_elem_of_fmap_2, Hin).
  unfold verifyMerkleProof, getMerkleProof. cbn zeta.
  destruct (findIndex (map id seq) (id t)) as [i|] eqn:Hfind.
  - apply findIndex_Some in Hfind as [Hi Hnth].
    rewrite <- Hnth at 1. rewrite proofLoop_folds_to_root by exact Hi.
    rewrite getMerkleRoot_last_level by exact Hne.
    apply String.eqb_refl.
  - apply findIndex_None in Hfind. contradiction.
Qed.

Lemma proof_of_member_verifies_witness :
  verifyMerkleProof "c"
    (getMerkleProof [sampleTx "a" "k1"; sampleTx "b" "k2"; sampleTx "c" "k1"] "c")
    (getMerkleRoot [sampleTx "a" "k1"; sampleTx "b" "k2"; sampleTx "c" "k1"])
  = true.
Proof.
  apply (proof_of_member_verifies
           [sampleTx "a" "k1"; sampleTx "b" "k2"; sampleTx "c" "k1"]
           (sampleTx "c" "k1")).
  do 2 apply list_elem_of_further. apply list_elem_of_here.
Defined.

(** C4 as stated fails: no sentinel text is hashed for the empty sequence,
    whose root is not distinct from the hash of the empty string. *)
Lemma empty_root_sentinel_counterexample :
  ¬ (∃ sentinel : string,
        sentinel ≠ "" ∧
        getMerkleRoot [] = hashData sentinel ∧
        getMerkleRoot [] ≠ hashData "").
Proof. intros (sentinel & _ & _ & Hdistinct). now apply Hdistinct. Qed.

(** C4, amended. [getMerkleRoot] of the empty sequence is the hash of the
    empty string, the constant [e3b0c442...] (the text ["Genesis Block"] is
    hashed for the genesis header only, by [createGenesisBlock]). *)
Theorem empty_root_is_hash_of_empty_string :
  getMerkleRoot [] = hashData "" ∧
  getMerkleRoot []
  = "e3b0c44298fc1c149afbf4c8996fb92427ae41e4649b934ca495991b7852b855".
Proof. split; [reflexivity | now vm_compute]. Qed.

(** C6 as stated fails at the transaction with identifier ["a"]: its root
    is ["a"], not the hash of ["aa"]. *)
Lemma single_root_counterexample :
  ¬ (getMerkleRoot [sampleTx "a" "k1"] = hashData ("a" +:+ "a") ∧
     getMerkleProof [sampleTx "a" "k1"] "a" = []).
Proof. vm_compute. intros [Hroot _]. discriminate Hroot. Qed.

(** C6, amended. For a block of exactly one transaction, [getMerkleRoot]
    returns the identifier itself, unhashed (the loop is not entered), and
    [getMerkleProof] for that transaction returns the empty proof. *)
Theorem single_transaction_root_and_proof (tx : Transaction) :
  getMerkleRoot [tx] = id tx ∧ getMerkleProof [tx] (id tx) = [].
Proof.
  split; [reflexivity|].
  unfold getMerkleProof. cbn [map findIndex].
  rewrite String.eqb_refl. now simp proofLoop.
Qed.

Lemma nextLevel_app_even (front tail : list string) :
  length front mod 2 = 0 →
  nextLevel (front ++ tail) = nextLevel front ++ nextLevel tail.
Proof.
  induction front as [|a|a b rest IH] using list_pair_ind; intros Hev.
  - reflexivity.
  - cbn in Hev. discriminate.
  - cbn [app nextLevel]. rewrite IH; [reflexivity|].
    cbn [length] in Hev. lia.
Qed.

(** C7. In the pairwise reduction, a level with an odd number of elements
    has its last, unpaired element [x] combined with itself as
    [hash(x ++ x)], and [getMerkleRoot] goes on from the level so built;
    for three identifiers [a, b, c] the intermediate level is
    [hash(a ++ b), hash(c ++ c)] and the root is the hash of the two
    concatenated. *)
Theorem odd_level_pairs_last_with_itself
    (front : list string) (x : string) (ta tb tc : Transaction) :
  length front mod 2 = 0 →
  nextLevel (front ++ [x]) = nextLevel front ++ [hashData (x +:+ x)]
  ∧ (front ≠ [] →
     reduceLevels (front ++ [x])
     = reduceLevels (nextLevel front ++ [hashData (x +:+ x)]))
  ∧ nextLevel (map id [ta; tb; tc])
    = [hashData (id ta +:+ id tb); hashData (id tc +:+ id tc)]
  ∧ getMerkleRoot [ta; tb; tc]
    = hashData (hashData (id ta +:+ id tb) +:+ hashData (id tc +:+ id tc)).
Proof.
  intros Hev.
  assert (Hnext : nextLevel (front ++ [x])
                  = nextLevel front ++ [hashData (x +:+ x)])
    by now rewrite nextLevel_app_even.
  split; [exact Hnext|]. split; [|split].
  - intros Hne. rewrite <- Hnext.
    destruct front as [|a [|b rest]]; [congruence | cbn in Hev; discriminate |].
    cbn [app]. now simp reduceLevels.
  - reflexivity.
  - unfold getMerkleRoot. cbn [length Nat.eqb map]. cbn zeta.
    now simp reduceLevels.
Qed.

Lemma odd_level_pairs_last_with_itself_witness :
  nextLevel (["a"; "b"] ++ ["c"])
  = nextLevel ["a"; "b"] ++ [hashData ("c" +:+ "c")]
  ∧ getMerkleRoot [sampleTx "a" "k1"; sampleTx "b" "k2"; sampleTx "c" "k1"]
    = hashData (hashData ("a" +:+ "b") +:+ hashData ("c" +:+ "c")).
Proof.
  destruct (odd_level_pairs_last_with_itself ["a"; "b"] "c"
              (sampleTx "a" "k1") (sampleTx "b" "k2") (sampleTx "c" "k1")
              eq_refl) as (Hnext & _ & _ & Hroot).
  exact (conj Hnext Hroot).
Defined.

(** C10. With the empty proof, [verifyMerkleProof(leaf, [], root)] is [true]
    iff [leaf] equals [root]; so every string verifies against itself, and
    the empty proof returned for a target absent from a block verifies
    against the block's root iff the target equals that root. *)
Theorem empty_proof_verifies_iff_equal
    (leaf root : string) (txs : list Transaction) (target : string) :
  target ∉ map id txs →
  (verifyMerkleProof leaf [] root = true ↔ leaf = root)
  ∧ verifyMerkleProof leaf [] leaf = true
  ∧ getMerkleProof txs target = []
  ∧ (verifyMerkleProof target (getMerkleProof txs target) (getMerkleRoot txs)
     = true ↔ target = getMerkleRoot txs).
Proof.
  intros Habsent.
  assert (Hempty : getMerkleProof txs target = []).
  { unfold getMerkleProof. cbn zeta.
    apply findIndex_None in Habsent. now rewrite Habsent. }
  rewrite Hempty. unfold verifyMerkleProof. cbn [fold_left].
  split; [apply String.eqb_eq|]. split; [apply String.eqb_refl|].
  split; [reflexivity | apply String.eqb_eq].
Qed.

Lemma empty_proof_verifies_iff_equal_witness :
  verifyMerkleProof "x" [] "x" = true
  ∧ getMerkleProof [sampleTx "a" "k1"; sampleTx "b" "k2"] "x" = [].
Proof.
  destruct (empty_proof_verifies_iff_equal "x" "y"
              [sampleTx "a" "k1"; sampleTx "b" "k2"] "x")
    as (_ & Hself & Hempty & _).
  - cbn [map id]. intros Hin.
    apply elem_of_cons in Hin as [Heq | Hin]; [discriminate Heq|].
    apply elem_of_cons in Hin as [Heq | Hin]; [discriminate Heq|].
    now apply elem_of_nil in Hin.
  - exact (conj Hself Hempty).
Defined.

End Merkle.

(** ** The ledger *)

Section Ledger.

Implicit Types (bc : Blockchain) (tx : Transaction) (i : nat).
Local Open Scope nat_scope.

Lemma validLoop_true (blocks : list Block) i count :
  validLoop blocks i count = true ↔
  ∀ j, i ≤ j < i + count → blockChecks blocks j = true.
Proof.
  revert i. induction count as [|count IH]; intros i; cbn [validLoop].
  - split; [intros _ j Hj; lia | reflexivity].
  - destruct (blockChecks blocks i) eqn:Hi.
    + rewrite IH. split; intros H j Hj.
      * destruct (decide (j = i)) as [->|]; [exact Hi | apply H; lia].
      * apply H. lia.
    + split; [discriminate|]. intros H. rewrite <- Hi. apply H. lia.
Qed.

(** What the three tests of the loop body decide. *)
Lemma blockChecks_true (blocks : list Block) i (current previous : Block) :
  blocks !! i = Some current → blocks !! (i - 1) = Some previous →
  blockChecks blocks i = true ↔
    hash current = calculateBlockHash current
    ∧ previousHash (header current) = hash previous
    ∧ merkleRoot (header current) = getMerkleRoot (transactions current).
Proof.
  intros Hc Hp. unfold blockChecks. rewrite Hc, Hp.
  destruct (String.eqb_spec (hash current) (calculateBlockHash current));
    cbn [negb]; [|split; [discriminate | tauto]].
  destruct (String.eqb_spec (previousHash (header current)) (hash previous));
    cbn [negb]; [|split; [discriminate | tauto]].
  destruct (String.eqb_spec (merkleRoot (header current))
                            (getMerkleRoot (transactions current)));
    cbn [negb]; [tauto | split; [discriminate | tauto]].
Qed.

(** From [i = 1] on, the loop body reads of the genesis block its stored
    [hash] only. *)
Lemma blockChecks_genesis (genesis genesis' : Block) (rest : list Block) i :
  1 ≤ i → hash genesis' = hash genesis →
  blockChecks (genesis' :: rest) i = blockChecks (genesis :: rest) i.
Proof.
  intros Hi Hh. destruct i as [|[|i]]; [lia | |reflexivity].
  unfold blockChecks. cbn. now rewrite Hh.
Qed.

Lemma validLoop_genesis (genesis genesis' : Block) (rest : list Block) i count :
  1 ≤ i → hash genesis' = hash genesis →
  validLoop (genesis' :: rest) i count = validLoop (genesis :: rest) i count.
Proof.
  revert i. induction count as [|count IH]; intros i Hi Hh; cbn [validLoop].
  - reflexivity.
  - rewrite (blockChecks_genesis genesis genesis') by assumption.
    rewrite IH by (assumption || lia). reflexivity.
Qed.

(** C2. [isChainValid] is [true] on a freshly constructed ledger; in general
    it is [true] iff every block at index 1 or more has its stored hash equal
    to the recomputed block hash, its [previousHash] equal to the stored hash
    of the block before it, and its [merkleRoot] equal to the root recomputed
    over its transactions (so one failure gives [false]); of the genesis
    block only the stored hash is read, its header and transactions are not
    checked. *)
Theorem isChainValid_characterisation :
  (∀ now : Z, isChainValid (newBlockchain now) = true)
  ∧ (∀ bc,
       isChainValid bc = true ↔
       ∀ i (current previous : Block),
         1 ≤ i →
         chain bc !! i = Some current →
         chain bc !! (i - 1) = Some previous →
         hash current = calculateBlockHash current
         ∧ previousHash (header current) = hash previous
         ∧ merkleRoot (header current) = getMerkleRoot (transactions current))
  ∧ (∀ (genesis genesis' : Block) (rest : list Block) pool revoked,
       hash genesis' = hash genesis →
       isChainValid {| chain := genesis' :: rest;
                       pendingTransactions := pool; revokedKeys := revoked |}
       = isChainValid {| chain := genesis :: rest;
                         pendingTransactions := pool; revokedKeys := revoked |}).
Proof.
  split; [reflexivity|]. split.
  - intros bc. unfold isChainValid. rewrite validLoop_true. split.
    + intros H i current previous Hi Hc Hp.
      apply (blockChecks_true _ i current previous Hc Hp), H.
      apply lookup_lt_Some in Hc. lia.
    + intros H j Hj.
      destruct (lookup_lt_is_Some_2 (chain bc) j) as [current Hc]; [lia|].
      destruct (lookup_lt_is_Some_2 (chain bc) (j - 1)) as [previous Hp]; [lia|].
      apply (blockChecks_true _ j current previous Hc Hp), (H j); auto. lia.
  - intros genesis genesis' rest pool revoked Hh. unfold isChainValid.
    cbn [chain length]. now apply validLoop_genesis.
Qed.

Lemma getLatestBlock_last bc : getLatestBlock bc = last (chain bc).
Proof. unfold getLatestBlock. now rewrite last_lookup, Nat.sub_1_r. Qed.

(** C3. On every ledger (its chain holding the genesis block at least),
    [minePendingTransactions] returns a block, also when the pool is empty;
    afterwards the pool is empty and the chain is the old chain with the new
    block appended, one block longer; the block holds the old pool in order,
    its [previousHash] is the stored hash of the old last block, its [index]
    the old chain length, its [merkleRoot] the root of the old pool, and its
    [hash] is [calculateBlockHash] of its header. *)
Theorem minePendingTransactions_spec (now pick : Z) bc :
  chain bc ≠ [] →
  ∃ (block : Block) (bc' : Blockchain) (lastBlock : Block),
    minePendingTransactions now pick bc = Some (block, bc')
    ∧ last (chain bc) = Some lastBlock
    ∧ pendingTransactions bc' = []
    ∧ chain bc' = chain bc ++ [block]
    ∧ length (chain bc') = S (length (chain bc))
    ∧ transactions block = pendingTransactions bc
    ∧ previousHash (header block) = hash lastBlock
    ∧ index (header block) = Z.of_nat (length (chain bc))
    ∧ merkleRoot (header block) = getMerkleRoot (pendingTransactions bc)
    ∧ hash block = calculateBlockHash block
    ∧ revokedKeys bc' = revokedKeys bc.
Proof.
  intros Hne. unfold minePendingTransactions.
  rewrite getLatestBlock_last.
  destruct (last (chain bc)) as [lastBlock|] eqn:Hlast.
  - eexists _, _, lastBlock. cbn zeta.
    repeat (split; [reflexivity|]). cbn [chain].
    split; [|repeat (split; [reflexivity|]); reflexivity].
    rewrite length_app. cbn [length]. lia.
  - apply last_None in Hlast. contradiction.
Qed.

Lemma minePendingTransactions_spec_witness :
  ∃ (block : Block) (bc' : Blockchain),
    minePendingTransactions 1700000000500 4242 (newBlockchain 1700000000000)
    = Some (block, bc')
    ∧ pendingTransactions bc' = []
    ∧ length (chain bc') = 2.
Proof.
  destruct (minePendingTransactions_spec 1700000000500 4242
              (newBlockchain 1700000000000))
    as (block & bc' & lastBlock & Hmine & _ & Hpool & _ & Hlen & _).
  - discriminate.
  - exists block, bc'. exact (conj Hmine (conj Hpool Hlen)).
Defined.

Lemma perform_revokedKeys bc (c : Call) :
  revokedKeys (perform bc c)
  = match c with
    | CallRevokeKey k => {[ k ]} ∪ revokedKeys bc
    | _ => revokedKeys bc
    end.
Proof.
  destruct c as [tx|now pick|k]; cbn [perform].
  - unfold addTransaction. now destruct (bool_decide _).
  - unfold minePendingTransactions. now destruct (getLatestBlock bc).
  - reflexivity.
Qed.

(** The revoked set holds the keys passed to [revokeKey] so far. *)
Lemma revokedKeys_after_calls (calls : list Call) bc (k : string) :
  k ∈ revokedKeys (fold_left perform calls bc) ↔
  k ∈ revokedKeys bc ∨ CallRevokeKey k ∈ calls.
Proof.
  revert bc. induction calls as [|c calls IH]; intros bc; cbn [fold_left].
  - rewrite elem_of_nil. tauto.
  - rewrite IH, perform_revokedKeys, elem_of_cons.
    destruct c as [tx|now pick|k']; try (intuition congruence).
    rewrite elem_of_union, elem_of_singleton.
    split; [intros [[->|?]|?]; auto | intros [?|[Heq|?]]; auto].
    injection Heq as ->. auto.
Qed.

(** C5. [addTransaction(tx)] returns [false] iff [tx.signerPublicKey] is in
    the revoked set, whatever the pool holds, and the revoked set of a ledger
    holds exactly the keys passed to [revokeKey] since its construction; on
    rejection pool, chain and revoked set are unchanged; on acceptance the
    result is [true], [tx] is appended at the end of the pool, and chain and
    revoked set are unchanged. *)
Theorem addTransaction_spec tx bc :
  (fst (addTransaction tx bc) = false ↔ signerPublicKey tx ∈ revokedKeys bc)
  ∧ (fst (addTransaction tx bc) = true ↔ signerPublicKey tx ∉ revokedKeys bc)
  ∧ (fst (addTransaction tx bc) = false → snd (addTransaction tx bc) = bc)
  ∧ (fst (addTransaction tx bc) = true →
     pendingTransactions (snd (addTransaction tx bc))
     = pendingTransactions bc ++ [tx]
     ∧ chain (snd (addTransaction tx bc)) = chain bc
     ∧ revokedKeys (snd (addTransaction tx bc)) = revokedKeys bc)
  ∧ (∀ (now : Z) (calls : list Call),
       fst (addTransaction tx (run now calls)) = false ↔
       CallRevokeKey (signerPublicKey tx) ∈ calls).
Proof.
  assert (Hfalse : ∀ bc0, fst (addTransaction tx bc0) = false ↔
                          signerPublicKey tx ∈ revokedKeys bc0).
  { intros bc0. unfold addTransaction.
    destruct (bool_decide_reflect (signerPublicKey tx ∈ revokedKeys bc0));
      cbn [fst]; [tauto | split; [discriminate | contradiction]]. }
  split; [apply Hfalse|]. split; [|split; [|split]].
  - rewrite <- Hfalse. destruct (fst (addTransaction tx bc)); split; congruence.
  - unfold addTransaction. destruct (bool_decide _); [reflexivity | discriminate].
  - unfold addTransaction. destruct (bool_decide _); [discriminate | auto].
  - intros now calls. rewrite Hfalse. unfold run.
    rewrite revokedKeys_after_calls. cbn [newBlockchain revokedKeys].
    rewrite elem_of_empty. tauto.
Qed.

(** C9. [revokeKey(k)] adds [k] to the revoked set and nothing else to it,
    and leaves chain and pool as they are; when [k] is revoked already the
    ledger is unchanged and the revoked set keeps its size. *)
Theorem revokeKey_spec (k : string) bc :
  k ∈ revokedKeys (revokeKey k bc)
  ∧ (∀ k' : string,
       k' ∈ revokedKeys (revokeKey k bc) ↔ k' = k ∨ k' ∈ revokedKeys bc)
  ∧ chain (revokeKey k bc) = chain bc
  ∧ pendingTransactions (revokeKey k bc) = pendingTransactions bc
  ∧ (k ∈ revokedKeys bc →
     revokeKey k bc = bc
     ∧ size (revokedKeys (revokeKey k bc)) = size (revokedKeys bc))
  ∧ (k ∉ revokedKeys bc →
     size (revokedKeys (revokeKey k bc)) = S (size (revokedKeys bc))).
Proof.
  unfold revokeKey. cbn [revokedKeys chain pendingTransactions].
  split; [set_solver|]. split; [set_solver|].
  split; [reflexivity|]. split; [reflexivity|]. split.
  - intros Hin.
    assert (Heq : {[k]} ∪ revokedKeys bc = revokedKeys bc)
      by now apply subseteq_union_1_L, singleton_subseteq_l.
    rewrite Heq. split; [now destruct bc | reflexivity].
  - intros Hnotin. rewrite size_union by set_solver.
    now rewrite size_singleton.
Qed.

(** Induction over the ledgers the class's operations reach. *)
Lemma reachable_ind (P : Blockchain → Prop) :
  (∀ now : Z, P (newBlockchain now)) →
  (∀ bc (c : Call), reachable bc → P bc → P (perform bc c)) →
  ∀ bc, reachable bc → P bc.
Proof.
  intros Hnew Hstep bc (now & calls & ->).
  induction calls as [|c calls IH] using rev_ind.
  - apply Hnew.
  - unfold run. rewrite fold_left_app. cbn [fold_left].
    apply Hstep; [now exists now, calls | exact IH].
Qed.

Lemma perform_chain bc (c : Call) :
  chain (perform bc c) = chain bc
  ∨ ∃ (now pick : Z) (block : Block) (bc' : Blockchain),
      c = CallMine now pick
      ∧ minePendingTransactions now pick bc = Some (block, bc')
      ∧ chain (perform bc c) = chain bc ++ [block].
Proof.
  destruct c as [tx|now pick|k]; cbn [perform].
  - left. unfold addTransaction. now destruct (bool_decide _).
  - destruct (minePendingTransactions now pick bc) as [[block bc']|] eqn:Hmine;
      [|now left].
    right. exists now, pick, block, bc'.
    split; [reflexivity|]. split; [exact Hmine|].
    unfold minePendingTransactions in Hmine.
    destruct (getLatestBlock bc); [|discriminate].
    cbn zeta in Hmine. injection Hmine as <- <-. reflexivity.
  - now left.
Qed.

(** A ledger always holds its genesis block. *)
Lemma reachable_chain_nonempty bc : reachable bc → chain bc ≠ [].
Proof.
  intros Hr. induction Hr as [now|bc c _ IH] using reachable_ind.
  - discriminate.
  - destruct (perform_chain bc c) as [->|(_ & _ & block & _ & _ & _ & ->)];
      [exact IH|].
    intros Happ. now apply app_eq_nil in Happ as [_ ?].
Qed.

Lemma genesis_hash_recomputable (now : Z) :
  hash (createGenesisBlock now) = calculateBlockHash (createGenesisBlock now).
Proof.
  unfold calculateBlockHash, createGenesisBlock.
  cbn [header hash index previousHash timestamp merkleRoot nonce].
  change (showNumber 0%Z) with "0". reflexivity.
Qed.

(** C8 as stated fails on the ledger constructed at time [1700000000000],
    with no call made: the [merkleRoot] of its genesis block is the hash of
    ["Genesis Block"], and the root of its empty transaction sequence is the
    hash of the empty string. *)
Lemma genesis_merkleRoot_counterexample :
  ¬ (∀ bc, reachable bc → ∀ b : Block, b ∈ chain bc →
       hash b = calculateBlockHash b
       ∧ merkleRoot (header b) = getMerkleRoot (transactions b)).
Proof.
  intros Hall.
  destruct (Hall (newBlockchain 1700000000000%Z)
                 (ex_intro _ 1700000000000%Z (ex_intro _ [] eq_refl))
                 (createGenesisBlock 1700000000000%Z)
                 (list_elem_of_here _ _)) as [_ Hroot].
  vm_compute in Hroot. discriminate Hroot.
Qed.

(** C8, amended. Every block of every reachable ledger, the genesis block
    included, has its stored hash equal to [calculateBlockHash] of its
    header; every block but the genesis block has its stored [merkleRoot]
    equal to [getMerkleRoot] of its transactions; the genesis block has no
    transactions and the hash of ["Genesis Block"] as its [merkleRoot]. *)
Theorem reachable_blocks_recomputable bc :
  reachable bc →
  (∀ i (b : Block), chain bc !! i = Some b →
     hash b = calculateBlockHash b
     ∧ (1 ≤ i → merkleRoot (header b) = getMerkleRoot (transactions b))
     ∧ (i = 0 → merkleRoot (header b) = hashData "Genesis Block"
                ∧ transactions b = []))
  ∧ hashData "Genesis Block" ≠ getMerkleRoot [].
Proof.
  intros Hr. split; [|now vm_compute].
  induction Hr as [now|bc c Hr IH] using reachable_ind;
    intros i b Hb.
  - destruct i as [|i]; [|discriminate Hb].
    injection Hb as <-. split; [apply genesis_hash_recomputable|].
    split; [lia | now intros _].
  - destruct (perform_chain bc c)
      as [Hsame|(now & pick & block & bc' & _ & Hmine & Hpush)].
    + rewrite Hsame in Hb. now apply IH.
    + rewrite Hpush in Hb. apply lookup_app_Some in Hb as [Hb|[Hlen Hb]].
      * now apply IH.
      * apply list_lookup_singleton_Some in Hb as [Hi <-].
        pose proof (reachable_chain_nonempty bc Hr) as Hne.
        assert (0 < length (chain bc)) by (destruct (chain bc); [congruence | cbn; lia]).
        unfold minePendingTransactions in Hmine.
        destruct (getLatestBlock bc); [|discriminate].
        injection Hmine as <- _.
        split; [reflexivity|]. split; [reflexivity | lia].
Qed.

Lemma reachable_blocks_recomputable_witness :
  ∃ b : Block,
    chain (run 1700000000000
               [CallAddTransaction (sampleTx "a" "k1");
                CallMine 1700000000500 4242]) !! 1 = Some b
    ∧ hash b = calculateBlockHash b
    ∧ merkleRoot (header b) = getMerkleRoot (transactions b).
Proof.
  eexists. split; [vm_compute; reflexivity|].
  destruct (reachable_blocks_recomputable
              (run 1700000000000
                   [CallAddTransaction (sampleTx "a" "k1");
                    CallMine 1700000000500 4242])
              (ex_intro _ _ (ex_intro _ _ eq_refl))) as [Hblocks _].
  destruct (Hblocks 1 _ ltac:(vm_compute; reflexivity)) as (Hhash & Hroot & _).
  split; [exact Hhash | apply Hroot; lia].
Defined.

End Ledger.

(** * Further properties *)

(** ** More on the Merkle engine *)

Section MerkleStructure.

Implicit Types (hashes : list string) (i : nat).
Local Open Scope nat_scope.

(** Root and proof read of the transactions their identifiers only. *)
Lemma getMerkleRoot_ids (txs txs' : list Transaction) :
  map id txs = map id txs' → getMerkleRoot txs = getMerkleRoot txs'.
Proof.
  intros Hids. unfold getMerkleRoot.
  assert (Hlen : length txs = length txs')
    by (rewrite <- (length_map id txs), Hids; apply length_map).
  now rewrite Hlen, Hids.
Qed.

Lemma proofLoop_length_bounds hashes i :
  (length hashes ≤ 1 → length (proofLoop hashes i []) = 0)
  ∧ length hashes ≤ 2 ^ length (proofLoop hashes i [])
  ∧ (1 < length hashes →
     2 ^ Nat.pred (length (proofLoop hashes i [])) < length hashes).
Proof.
  revert i.
  induction hashes as [|a|a b rest IH] using levels_ind; intros i;
    simp proofLoop; cbn [length]; try (cbn; lia).
  rewrite proofLoop_acc. cbn [app length Nat.pred].
  destruct (IH (i / 2)) as (Hone & Hup & Hlow).
  rewrite nextLevel_length in Hone, Hup, Hlow. cbn [length] in Hone, Hup, Hlow.
  rewrite Nat.div2_div in Hone, Hup, Hlow.
  set (k := length (proofLoop (nextLevel (a :: b :: rest)) (i / 2) [])) in *.
  rewrite Nat.pow_succ_r'.
  split; [lia|]. split; [lia|]. intros _.
  destruct k as [|k].
  - cbn in *. lia.
  - cbn [Nat.pred] in Hlow. rewrite Nat.pow_succ_r'.
    assert (1 < S (S (S (length rest))) / 2 ∨ S (S (S (length rest))) / 2 ≤ 1)
      as [Hbig|Hsmall] by lia; [specialize (Hlow Hbig); lia|].
    specialize (Hone Hsmall). discriminate Hone.
Qed.

(** X1. The proof of a transaction of a block of [n] transactions has
    [ceil(log2 n)] steps, whichever transaction it is. *)
Theorem proof_length_is_log2_up (txs : list Transaction) (target : string) :
  target ∈ map id txs →
  length (getMerkleProof txs target) = Nat.log2_up (length txs).
Proof.
  intros Hin. unfold getMerkleProof. cbn zeta.
  destruct (findIndex (map id txs) target) as [i|] eqn:Hfind;
    [|apply findIndex_None in Hfind; contradiction].
  destruct (proofLoop_length_bounds (map id txs) i) as (Hone & Hup & Hlow).
  rewrite length_map in Hone, Hup, Hlow.
  destruct (decide (length txs ≤ 1)) as [Hsmall|Hbig].
  - rewrite (Hone Hsmall). symmetry. now apply Nat.log2_up_eqn0.
  - symmetry. apply Nat.log2_up_unique; [|split; [apply Hlow; lia | exact Hup]].
    destruct (length (proofLoop (map id txs) i [])); [cbn in Hup; lia | lia].
Qed.

Lemma proof_length_is_log2_up_witness :
  length (getMerkleProof
            [sampleTx "a" "k1"; sampleTx "b" "k2"; sampleTx "c" "k1";
             sampleTx "d" "k2"; sampleTx "e" "k1"] "d")
  = Nat.log2_up 5.
Proof.
  apply (proof_length_is_log2_up
           [sampleTx "a" "k1"; sampleTx "b" "k2"; sampleTx "c" "k1";
            sampleTx "d" "k2"; sampleTx "e" "k1"] "d").
  cbn [map id sampleTx].
  do 3 apply list_elem_of_further. apply list_elem_of_here.
Defined.

(** X2. A block with an odd number of transactions, three or more, has
    the root of the block that repeats its last transaction: the two
    sequences are not told apart by their roots. *)
Theorem odd_block_root_equals_duplicated_last
    (front : list Transaction) (tx : Transaction) :
  front ≠ [] → length front mod 2 = 0 →
  getMerkleRoot (front ++ [tx]) = getMerkleRoot (front ++ [tx; tx]).
Proof.
  intros Hne Hev. unfold getMerkleRoot.
  rewrite !length_app. cbn [length].
  replace (length front + 1 =? 0) with false by (symmetry; apply Nat.eqb_neq; lia).
  replace (length front + 2 =? 0) with false by (symmetry; apply Nat.eqb_neq; lia).
  cbn zeta. rewrite !map_app. cbn [map].
  assert (Hlen : length (map id front) mod 2 = 0) by now rewrite length_map.
  destruct (map id front) as [|a [|b rest]] eqn:Hfront;
    [apply map_eq_nil in Hfront; contradiction | cbn in Hlen; discriminate |].
  cbn [app]. simp reduceLevels.
  change (a :: b :: rest ++ [id tx]) with ((a :: b :: rest) ++ [id tx]).
  change (a :: b :: rest ++ [id tx; id tx])
    with ((a :: b :: rest) ++ [id tx; id tx]).
  now rewrite !nextLevel_app_even by exact Hlen.
Qed.

Lemma odd_block_root_equals_duplicated_last_witness :
  getMerkleRoot ([sampleTx "a" "k1"; sampleTx "b" "k2"] ++ [sampleTx "c" "k1"])
  = getMerkleRoot ([sampleTx "a" "k1"; sampleTx "b" "k2"]
                   ++ [sampleTx "c" "k1"; sampleTx "c" "k1"]).
Proof.
  apply (odd_block_root_equals_duplicated_last
           [sampleTx "a" "k1"; sampleTx "b" "k2"] (sampleTx "c" "k1")).
  - discriminate.
  - reflexivity.
Defined.

Lemma proofLoop_length_log2 hashes i :
  length (proofLoop hashes i []) = Nat.log2_up (length hashes).
Proof.
  destruct (proofLoop_length_bounds hashes i) as (Hone & Hup & Hlow).
  destruct (decide (length hashes ≤ 1)) as [Hsmall|Hbig].
  - rewrite (Hone Hsmall). symmetry. now apply Nat.log2_up_eqn0.
  - symmetry. apply Nat.log2_up_unique; [|split; [apply Hlow; lia | exact Hup]].
    destruct (length (proofLoop hashes i [])); [cbn in Hup; lia | lia].
Qed.

Lemma levelsLoop_acc hashes (levels : list (list string)) :
  levelsLoop hashes levels = levels ++ levelsLoop hashes [].
Proof.
  revert levels.
  induction hashes as [|a|a b rest IH] using levels_ind; intros levels;
    simp levelsLoop; try (now rewrite app_nil_r).
  rewrite IH, (IH ([] ++ _)). now rewrite <- app_assoc.
Qed.

Lemma levelsLoop_step a b rest :
  levelsLoop (a :: b :: rest) []
  = nextLevel (a :: b :: rest) :: levelsLoop (nextLevel (a :: b :: rest)) [].
Proof. simp levelsLoop. now rewrite levelsLoop_acc. Qed.

(** The levels pushed by the loop of [buildMerkleTreeData], after the
    first. *)
Lemma levelsLoop_levels hashes :
  hashes ≠ [] →
  last (hashes :: levelsLoop hashes []) = Some (reduceLevels hashes)
  ∧ length (levelsLoop hashes []) = Nat.log2_up (length hashes)
  ∧ ∀ j (lvl lvl' : list string),
      (hashes :: levelsLoop hashes []) !! j = Some lvl →
      (hashes :: levelsLoop hashes []) !! S j = Some lvl' →
      lvl' = nextLevel lvl ∧ 1 < length lvl.
Proof.
  induction hashes as [|a|a b rest IH] using levels_ind; intros Hne.
  - congruence.
  - simp levelsLoop reduceLevels. split; [reflexivity|].
    split; [reflexivity|]. intros [|j] lvl lvl' _ H; discriminate H.
  - rewrite <- (proofLoop_length_log2 (a :: b :: rest) 0).
    rewrite levelsLoop_step. simp reduceLevels proofLoop.
    rewrite proofLoop_acc. cbn [app length].
    destruct IH as (Hlast & Hlen & Hnext);
      [apply nextLevel_nonempty; discriminate|].
    split; [exact Hlast|].
    split; [now rewrite Hlen, (proofLoop_length_log2 _ (0 / 2))|].
    intros [|j] lvl lvl' Hj Hj'.
    + injection Hj as <-. injection Hj' as <-.
      split; [reflexivity | cbn [length]; lia].
    + exact (Hnext j lvl lvl' Hj Hj').
Qed.

(** X3. [buildMerkleTreeData] returns [null] on the empty sequence only;
    otherwise the levels it returns begin with the identifiers and end with
    the one-element level holding [getMerkleRoot] of the sequence, each
    level after the first is the pairwise reduction of the one before it,
    which has two elements or more, and there are [1 + ceil(log2 n)] of
    them. *)
Theorem buildMerkleTreeData_levels (txs : list Transaction) :
  match buildMerkleTreeData txs with
  | None => txs = []
  | Some levels =>
      txs ≠ []
      ∧ head levels = Some (map id txs)
      ∧ last levels = Some [getMerkleRoot txs]
      ∧ length levels = S (Nat.log2_up (length txs))
      ∧ ∀ j (lvl lvl' : list string),
          levels !! j = Some lvl → levels !! S j = Some lvl' →
          lvl' = nextLevel lvl ∧ 1 < length lvl
  end.
Proof.
  unfold buildMerkleTreeData. destruct txs as [|t txs]; [reflexivity|].
  cbn [length Nat.eqb]. cbn zeta.
  rewrite levelsLoop_acc. cbn [app].
  destruct (levelsLoop_levels (map id (t :: txs))) as (Hlast & Hlen & Hnext);
    [discriminate|].
  split; [discriminate|]. split; [reflexivity|].
  split; [now rewrite Hlast, getMerkleRoot_last_level|].
  split; [|exact Hnext].
  cbn [length] in *. now rewrite Hlen, length_map.
Qed.

Lemma nextLevelNodes_fullHash (nodes : list D3Node) :
  map fullHash (nextLevelNodes nodes) = nextLevel (map fullHash nodes).
Proof.
  induction nodes as [|l|l r rest IH] using list_pair_ind;
    cbn [nextLevelNodes nextLevel map fullHash]; [reflexivity..|].
  now rewrite IH.
Qed.

Lemma nextLevelNodes_leafHashes (nodes : list D3Node) :
  flat_map leafHashes (nextLevelNodes nodes) = flat_map leafHashes nodes.
Proof.
  induction nodes as [|l|l r rest IH] using list_pair_ind;
    cbn [nextLevelNodes flat_map leafHashes]; rewrite ?app_nil_r;
    [reflexivity..|].
  now rewrite IH, <- app_assoc.
Qed.

Lemma nextLevelNodes_named (nodes : list D3Node) :
  Forall (λ n, name n = shortName (fullHash n)) (nextLevelNodes nodes).
Proof.
  induction nodes as [|l|l r rest IH] using list_pair_ind;
    cbn [nextLevelNodes]; repeat constructor; assumption.
Qed.

Lemma nodeLevels_ind (P : list D3Node → Prop) :
  P [] → (∀ l, P [l]) →
  (∀ l r rest, P (nextLevelNodes (l :: r :: rest)) → P (l :: r :: rest)) →
  ∀ nodes, P nodes.
Proof.
  intros Hnil Hone Hstep nodes.
  remember (length nodes) as n eqn:E. revert nodes E.
  induction n as [n IH] using lt_wf_ind. intros nodes E.
  destruct nodes as [|l [|r rest]]; auto.
  apply Hstep, (IH (length (nextLevelNodes (l :: r :: rest)))); [|reflexivity].
  subst n. apply nextLevelNodes_shorter.
Qed.

(** What the loop of [buildTree] keeps: the hashes of the level are those
    of [getMerkleRoot]'s loop, and the leaves under the level do not
    change. *)
Lemma treeLoop_invariant (nodes : list D3Node) :
  map fullHash (treeLoop nodes) = reduceLevels (map fullHash nodes)
  ∧ flat_map leafHashes (treeLoop nodes) = flat_map leafHashes nodes
  ∧ (Forall (λ n, name n = shortName (fullHash n)) nodes →
     Forall (λ n, name n = shortName (fullHash n)) (treeLoop nodes)).
Proof.
  induction nodes as [|l|l r rest IH] using nodeLevels_ind.
  - now simp treeLoop.
  - cbn [map]. now simp treeLoop reduceLevels.
  - simp treeLoop. destruct IH as (Hh & Hl & Hn).
    rewrite Hh, Hl, nextLevelNodes_fullHash, nextLevelNodes_leafHashes.
    cbn [map]. simp reduceLevels.
    split; [reflexivity|]. split; [reflexivity|].
    intros _. apply Hn, nextLevelNodes_named.
Qed.

Lemma buildTree_result (txs : list Transaction) :
  txs ≠ [] →
  ∃ root,
    buildTree txs = Some root
    ∧ fullHash root = getMerkleRoot txs
    ∧ name root = shortName (fullHash root)
    ∧ leafHashes root = map id txs.
Proof.
  intros Hne. unfold buildTree.
  destruct txs as [|t txs]; [congruence|]. cbn [length Nat.eqb]. cbn zeta.
  set (leaves := map (λ tx, MkD3Node (shortName (id tx)) (id tx) []) (t :: txs)).
  assert (Hids : map fullHash leaves = map id (t :: txs)).
  { unfold leaves. rewrite map_map. reflexivity. }
  assert (Hleaf : flat_map leafHashes leaves = map id (t :: txs)).
  { unfold leaves. generalize (t :: txs) as l.
    induction l as [|x l IH]; cbn; [reflexivity | now rewrite IH]. }
  assert (Hnamed : Forall (λ n, name n = shortName (fullHash n)) leaves).
  { unfold leaves. generalize (t :: txs) as l.
    induction l as [|x l IH]; cbn [map]; constructor;
      [reflexivity | exact IH]. }
  destruct (treeLoop_invariant leaves) as (Hh & Hl & Hn).
  rewrite Hids, getMerkleRoot_last_level in Hh by discriminate.
  destruct (treeLoop leaves) as [|root [|other more]]; try discriminate Hh.
  exists root. cbn [map] in Hh. injection Hh as Hh.
  split; [reflexivity|]. split; [exact Hh|].
  split.
  - specialize (Hn Hnamed). now apply Forall_inv in Hn.
  - cbn [flat_map] in Hl. rewrite app_nil_r in Hl. now rewrite Hl.
Qed.


(** X5. The leaves of the tree [buildTree] returns, read left to right,
    are the identifiers of the transactions, each once and in the order of
    the block: the node of an unpaired element has that element as its one
    child. *)
Theorem buildTree_leaves_are_transactions
    (txs : list Transaction) (root : D3Node) :
  buildTree txs = Some root → leafHashes root = map id txs.
Proof.
  intros Hroot. destruct txs as [|t txs]; [discriminate Hroot|].
  destruct (buildTree_result (t :: txs)) as (root' & Hroot' & _ & _ & Hl);
    [discriminate|].
  rewrite Hroot in Hroot'. now injection Hroot' as <-.
Qed.

Lemma buildTree_leaves_are_transactions_witness :
  ∃ root : D3Node,
    buildTree [sampleTx "a" "k1"; sampleTx "b" "k2"; sampleTx "c" "k1"]
    = Some root
    ∧ leafHashes root = ["a"; "b"; "c"].
Proof.
  eexists. split; [vm_compute; reflexivity|].
  apply (buildTree_leaves_are_transactions
           [sampleTx "a" "k1"; sampleTx "b" "k2"; sampleTx "c" "k1"]).
  vm_compute. reflexivity.
Defined.

End MerkleStructure.

(** ** Identifiers and digests ([services/crypto.ts]) *)

Section Identifiers.

Local Open Scope nat_scope.

Lemma string_app_assoc (s1 s2 s3 : string) :
  (s1 +:+ s2) +:+ s3 = s1 +:+ (s2 +:+ s3).
Proof.
  induction s1 as [|c s1 IH]; [reflexivity|].
  change (String c ((s1 +:+ s2) +:+ s3) = String c (s1 +:+ (s2 +:+ s3))).
  now rewrite IH.
Qed.

Lemma string_app_length (s1 s2 : string) :
  String.length (s1 +:+ s2) = String.length s1 + String.length s2.
Proof.
  induction s1 as [|c s1 IH]; [reflexivity|].
  change (S (String.length (s1 +:+ s2))
          = S (String.length s1) + String.length s2).
  now rewrite IH.
Qed.

(** X6. [createTransactionId] joins its fields with colons and escapes
    none: a colon moved from the product name to the details gives the same
    identifier for a different product name. *)
Theorem createTransactionId_colon_collision
    (product rest details : string) (timestamp : Z) :
  createTransactionId (product +:+ ":" +:+ rest) details timestamp
  = createTransactionId product (rest +:+ ":" +:+ details) timestamp
  ∧ product +:+ ":" +:+ rest ≠ product.
Proof.
  split.
  - unfold createTransactionId. apply (f_equal hashData).
    rewrite !string_app_assoc. reflexivity.
  - intros Heq. apply (f_equal String.length) in Heq.
    rewrite !string_app_length in Heq. cbn [String.length] in Heq. lia.
Qed.

Lemma compress_length (h block : list Z) :
  length h = 8 → length (SHA256.compress h block) = 8.
Proof.
  intros Hh. unfold SHA256.compress. cbn zeta.
  rewrite length_map, length_combine, Hh. reflexivity.
Qed.

Lemma blocks_length (n : nat) (ws h : list Z) :
  length h = 8 → length (SHA256.blocks n ws h) = 8.
Proof.
  revert ws h. induction n as [|n IH]; intros ws h Hh; cbn [SHA256.blocks].
  - exact Hh.
  - apply IH, compress_length, Hh.
Qed.

Lemma hex_of_words_length (ws : list Z) :
  length (concat (map SHA256.hex_of_word ws)) = 8 * length ws.
Proof.
  induction ws as [|w ws IH]; [reflexivity|].
  cbn [map concat]. rewrite length_app, IH. cbn [length SHA256.hex_of_word map].
  lia.
Qed.

Lemma string_of_list_ascii_length (l : list ascii) :
  String.length (string_of_list_ascii l) = length l.
Proof. induction l as [|c l IH]; cbn; [reflexivity | now rewrite IH]. Qed.

Transparent hashData.

Lemma hashData_length (data : string) : String.length (hashData data) = 64.
Proof.
  unfold hashData, SHA256.hex.
  rewrite string_of_list_ascii_length, hex_of_words_length.
  unfold SHA256.digest. cbn zeta. now rewrite blocks_length.
Qed.

Opaque hashData.

Lemma nextLevel_hashed (hashes : list string) :
  Forall (λ h, String.length h = 64) (nextLevel hashes).
Proof.
  induction hashes as [|a|a b rest IH] using list_pair_ind; cbn [nextLevel];
    repeat constructor; try apply hashData_length. exact IH.
Qed.

Lemma reduceLevels_hashed (hashes : list string) :
  1 < length hashes →
  Forall (λ h, String.length h = 64) (reduceLevels hashes).
Proof.
  induction hashes as [|a|a b rest IH] using levels_ind; intros Hlen;
    [cbn in Hlen; lia..|].
  simp reduceLevels.
  remember (nextLevel (a :: b :: rest)) as next eqn:Hnext.
  pose proof (nextLevel_hashed (a :: b :: rest)) as Hall.
  rewrite <- Hnext in Hall.
  destruct next as [|x [|y more]].
  - now simp reduceLevels.
  - now simp reduceLevels.
  - apply IH. cbn [length]. lia.
Qed.

(** X7. Every digest [hashData] returns is 64 characters long; so are
    the identifier [createTransactionId] derives, the hash of every block,
    and the root of every block of no transaction or of two or more. (The
    root of a block of one transaction is that transaction's identifier,
    whatever its length.) *)
Theorem digests_are_64_characters :
  (∀ data : string, String.length (hashData data) = 64)
  ∧ (∀ (product details : string) (timestamp : Z),
       String.length (createTransactionId product details timestamp) = 64)
  ∧ (∀ block : Block, String.length (calculateBlockHash block) = 64)
  ∧ (∀ txs : list Transaction,
       length txs ≠ 1 → String.length (getMerkleRoot txs) = 64)
  ∧ (∀ tx : Transaction, getMerkleRoot [tx] = id tx).
Proof.
  split; [apply hashData_length|]. split; [intros; apply hashData_length|].
  split; [intros; apply hashData_length|]. split; [|reflexivity].
  intros txs Hlen. destruct txs as [|t [|t' txs]];
    [apply hashData_length | cbn in Hlen; congruence |].
  pose proof (reduceLevels_hashed (map id (t :: t' :: txs))) as Hall.
  rewrite getMerkleRoot_last_level in Hall by discriminate.
  apply Forall_inv in Hall; [exact Hall|]. cbn [map length]. lia.
Qed.

End Identifiers.

(** ** More on the ledger *)

Section LedgerInvariants.

Implicit Types (bc : Blockchain) (tx : Transaction) (i : nat).
Local Open Scope nat_scope.

(** What every block of a reachable ledger satisfies, with its place in
    the chain. *)
Lemma reachable_chain_linked bc :
  reachable bc →
  ∀ i (b : Block), chain bc !! i = Some b →
    index (header b) = Z.of_nat i
    ∧ hash b = calculateBlockHash b
    ∧ (1 ≤ i →
       merkleRoot (header b) = getMerkleRoot (transactions b)
       ∧ ∃ previous : Block,
           chain bc !! (i - 1) = Some previous
           ∧ previousHash (header b) = hash previous).
Proof.
  intros Hr. induction Hr as [now|bc c Hr IH] using reachable_ind;
    intros i b Hb.
  - destruct i as [|i]; [|discriminate Hb].
    injection Hb as <-. split; [reflexivity|].
    split; [apply genesis_hash_recomputable | lia].
  - destruct (perform_chain bc c)
      as [Hsame|(now & pick & block & bc' & _ & Hmine & Hpush)].
    + rewrite Hsame in *. now apply IH.
    + rewrite Hpush in *. apply lookup_app_Some in Hb as [Hb|[Hlen Hb]].
      * destruct (IH i b Hb) as (Hi & Hh & Hprev).
        split; [exact Hi|]. split; [exact Hh|]. intros H1.
        destruct (Hprev H1) as (Hroot & previous & Hp & Hlink).
        split; [exact Hroot|]. exists previous.
        split; [|exact Hlink]. now apply lookup_app_l_Some.
      * apply list_lookup_singleton_Some in Hb as [Hi <-].
        pose proof (reachable_chain_nonempty bc Hr) as Hne.
        assert (0 < length (chain bc))
          by (destruct (chain bc); [congruence | cbn; lia]).
        assert (i = length (chain bc)) as -> by lia.
        unfold minePendingTransactions in Hmine.
        destruct (getLatestBlock bc) as [previousBlock|] eqn:Hlatest;
          [|discriminate].
        injection Hmine as <- _.
        split; [reflexivity|]. split; [reflexivity|]. intros _.
        split; [reflexivity|]. exists previousBlock.
        split; [|reflexivity]. apply lookup_app_l_Some. exact Hlatest.
Qed.

(** X8. Every ledger the class's operations reach passes its own check:
    [isChainValid] is [true] after any sequence of calls. *)
Theorem reachable_ledger_is_valid bc :
  reachable bc → isChainValid bc = true.
Proof.
  intros Hr. unfold isChainValid. apply validLoop_true. intros j Hj.
  destruct (lookup_lt_is_Some_2 (chain bc) j) as [current Hc]; [lia|].
  destruct (reachable_chain_linked bc Hr j current Hc) as (_ & Hh & Hprev).
  destruct Hprev as (Hroot & previous & Hp & Hlink); [lia|].
  apply (blockChecks_true _ j current previous Hc Hp). auto.
Qed.

Lemma reachable_ledger_is_valid_witness :
  isChainValid
    (run 1700000000000
         [CallAddTransaction (sampleTx "a" "k1");
          CallAddTransaction (sampleTx "b" "k2");
          CallMine 1700000000500 4242;
          CallRevokeKey "k2";
          CallAddTransaction (sampleTx "c" "k1");
          CallMine 1700000000900 17]) = true.
Proof.
  apply reachable_ledger_is_valid. eexists _, _. reflexivity.
Defined.

Lemma perform_chain_length bc (c : Call) :
  chain bc ≠ [] →
  length (chain (perform bc c))
  = length (chain bc) + (if isMine c then 1 else 0).
Proof.
  intros Hne. destruct c as [tx|now pick|k]; cbn [perform isMine].
  - unfold addTransaction. destruct (bool_decide _); cbn [snd chain]; lia.
  - unfold minePendingTransactions. rewrite getLatestBlock_last.
    destruct (last (chain bc)) eqn:Hlast;
      [|apply last_None in Hlast; contradiction].
    cbn [chain]. rewrite length_app. reflexivity.
  - cbn [revokeKey chain]. lia.
Qed.

Lemma chain_positions_genesis (now : Z) (calls : list Call) :
  chain (run now calls) !! 0 = Some (createGenesisBlock now)
  ∧ chain (run now calls) ≠ [].
Proof.
  split; [|apply reachable_chain_nonempty; now exists now, calls].
  induction calls as [|c calls IH] using rev_ind; [reflexivity|].
  unfold run in *. rewrite fold_left_app. cbn [fold_left].
  destruct (perform_chain (fold_left perform calls (newBlockchain now)) c)
    as [->|(_ & _ & block & _ & _ & _ & ->)]; [exact IH|].
  now apply lookup_app_l_Some.
Qed.

(** X9. After [new Blockchain()] and any calls, the chain holds the genesis
    block at position 0 and one block more for each call of
    [minePendingTransactions], and the [index] in the header of each block
    is its position in the chain. *)
Theorem chain_positions (now : Z) (calls : list Call) :
  chain (run now calls) !! 0 = Some (createGenesisBlock now)
  ∧ length (chain (run now calls)) = S (length (List.filter isMine calls))
  ∧ ∀ i (b : Block),
      chain (run now calls) !! i = Some b → index (header b) = Z.of_nat i.
Proof.
  split; [|split].
  - apply chain_positions_genesis.
  - induction calls as [|c calls IH] using rev_ind; [reflexivity|].
    unfold run in *. rewrite fold_left_app. cbn [fold_left].
    rewrite perform_chain_length
      by (apply reachable_chain_nonempty; now exists now, calls).
    rewrite IH, List.filter_app, length_app. cbn [List.filter].
    destruct (isMine c); cbn [length]; lia.
  - intros i b Hb.
    now destruct (reachable_chain_linked (run now calls)
                    (ex_intro _ now (ex_intro _ calls eq_refl)) i b Hb).
Qed.

(** X10. No call removes or alters a block, and none removes a revoked
    key: the chain before any sequence of calls is a prefix of the chain
    after it, and the revoked set before is included in the one after. *)
Theorem ledger_only_grows bc (calls : list Call) :
  chain bc `prefix_of` chain (fold_left perform calls bc)
  ∧ revokedKeys bc ⊆ revokedKeys (fold_left perform calls bc).
Proof.
  revert bc. induction calls as [|c calls IH]; intros bc; cbn [fold_left].
  - split; reflexivity.
  - destruct (IH (perform bc c)) as [Hchain Hkeys]. split.
    + etransitivity; [|exact Hchain].
      destruct (perform_chain bc c) as [->|(_ & _ & block & _ & _ & _ & ->)];
        [reflexivity | now apply prefix_app_r].
    + etransitivity; [|exact Hkeys].
      rewrite perform_revokedKeys.
      destruct c as [tx|now pick|k]; [reflexivity..|]. apply union_subseteq_r.
Qed.

(** X11. Revocation is for good: after [revokeKey(k)], whatever calls
    follow, [addTransaction] refuses every transaction signed by [k] and
    leaves the ledger as it is. *)
Theorem revoked_signer_stays_rejected
    bc (k : string) (calls : list Call) tx :
  signerPublicKey tx = k →
  addTransaction tx (fold_left perform calls (revokeKey k bc))
  = (false, fold_left perform calls (revokeKey k bc)).
Proof.
  intros Hk. unfold addTransaction.
  rewrite bool_decide_eq_true_2; [reflexivity|].
  apply revokedKeys_after_calls. left. subst k.
  cbn [revokeKey revokedKeys]. apply elem_of_union_l, elem_of_singleton_2.
  reflexivity.
Qed.

Lemma revoked_signer_stays_rejected_witness :
  fst (addTransaction (sampleTx "c" "k2")
         (fold_left perform
            [CallAddTransaction (sampleTx "a" "k1"); CallMine 1700000000500 7]
            (revokeKey "k2" (newBlockchain 1700000000000))))
  = false.
Proof.
  now rewrite (revoked_signer_stays_rejected (newBlockchain 1700000000000)
                 "k2"
                 [CallAddTransaction (sampleTx "a" "k1");
                  CallMine 1700000000500 7]
                 (sampleTx "c" "k2") eq_refl).
Defined.

Lemma perform_ledgerTransactions bc (c : Call) :
  ledgerTransactions (perform bc c)
  = ledgerTransactions bc ++ acceptedTransactions (revokedKeys bc) [c].
Proof.
  unfold ledgerTransactions.
  destruct c as [tx|now pick|k]; cbn [perform acceptedTransactions].
  - unfold addTransaction. destruct (bool_decide _); cbn [snd chain pendingTransactions].
    + now rewrite app_nil_r.
    + now rewrite app_assoc.
  - rewrite app_nil_r. unfold minePendingTransactions.
    destruct (getLatestBlock bc); [|reflexivity].
    cbn [chain pendingTransactions transactions].
    rewrite map_app, concat_app. cbn [map concat transactions].
    now rewrite !app_nil_r.
  - now rewrite app_nil_r.
Qed.

Lemma ledgerTransactions_after_calls (calls : list Call) bc :
  ledgerTransactions (fold_left perform calls bc)
  = ledgerTransactions bc ++ acceptedTransactions (revokedKeys bc) calls.
Proof.
  revert bc. induction calls as [|c calls IH]; intros bc; cbn [fold_left].
  - cbn [acceptedTransactions]. now rewrite app_nil_r.
  - rewrite IH, perform_ledgerTransactions, perform_revokedKeys, <- app_assoc.
    f_equal. destruct c as [tx|now pick|k]; cbn [acceptedTransactions];
      [destruct (bool_decide _)|..]; reflexivity.
Qed.

(** X12. No transaction is lost, repeated or moved: after any calls, the
    transactions of the blocks in chain order followed by those of the pool
    are exactly the transactions passed to [addTransaction] while their
    signer was not revoked, in the order of the calls. *)
Theorem transactions_are_conserved (now : Z) (calls : list Call) :
  concat (map transactions (chain (run now calls)))
  ++ pendingTransactions (run now calls)
  = acceptedTransactions ∅ calls.
Proof.
  exact (ledgerTransactions_after_calls calls (newBlockchain now)).
Qed.

Lemma blockChecks_sameCommitment (blocks blocks' : list Block) i :
  Forall2 sameCommitment blocks blocks' →
  blockChecks blocks i = blockChecks blocks' i.
Proof.
  intros Hall. unfold blockChecks.
  assert (Hlook : ∀ j, option_Forall2 sameCommitment (blocks !! j) (blocks' !! j))
    by now apply Forall2_lookup.
  destruct (Hlook i) as [current current' (Hhdr & Hhash & Hids)|];
    [|reflexivity].
  destruct (Hlook (i - 1)) as [previous previous' (_ & Hhash' & _)|];
    [|reflexivity].
  unfold calculateBlockHash. cbn zeta.
  now rewrite Hhdr, Hhash, Hhash', (getMerkleRoot_ids _ _ Hids).
Qed.

(** X13. Of a transaction, [isChainValid] reads the [id] only: two chains
    whose blocks have the same headers, the same stored hashes and
    transactions with the same identifiers get the same answer, so a
    change of the [details], [productName], [signature] or
    [signerPublicKey] of a mined transaction is not detected. *)
Theorem isChainValid_reads_identifiers_only bc bc' :
  Forall2 sameCommitment (chain bc) (chain bc') →
  isChainValid bc = isChainValid bc'.
Proof.
  intros Hall. unfold isChainValid.
  rewrite <- (Forall2_length _ _ _ Hall).
  generalize (length (chain bc) - 1) as count. generalize 1 as i.
  intros i count. revert i.
  induction count as [|count IH]; intros i; cbn [validLoop]; [reflexivity|].
  now rewrite (blockChecks_sameCommitment _ _ i Hall), IH.
Qed.

Lemma isChainValid_reads_identifiers_only_witness :
  isChainValid
    (run 1700000000000
         [CallAddTransaction (sampleTx "a" "k1"); CallMine 1700000000500 7])
  = isChainValid
      {| chain :=
           map (overwriteDetails "Carbon Footprint: 0kg")
               (chain (run 1700000000000
                           [CallAddTransaction (sampleTx "a" "k1");
                            CallMine 1700000000500 7]));
         pendingTransactions := [];
         revokedKeys := ∅ |}.
Proof.
  apply isChainValid_reads_identifiers_only.
  vm_compute. repeat constructor.
Defined.

Lemma present_target_verifies (txs : list Transaction) (target : string) :
  target ∈ map id txs →
  verifyMerkleProof target (getMerkleProof txs target) (getMerkleRoot txs)
  = true.
Proof.
  intros Hin.
  assert (Hne : txs ≠ [])
    by (intros ->; cbn in Hin; now apply elem_of_nil in Hin).
  unfold verifyMerkleProof, getMerkleProof. cbn zeta.
  destruct (findIndex (map id txs) target) as [i|] eqn:Hfind;
    [|apply findIndex_None in Hfind; contradiction].
  apply findIndex_Some in Hfind as [Hi Hnth].
  rewrite <- Hnth at 1.
  rewrite proofLoop_folds_to_root, getMerkleRoot_last_level by assumption.
  apply String.eqb_refl.
Qed.

(** X14. In a ledger the class's operations reach, the check the auditor
    runs on a transaction of a block, [handleVerifyTransaction] with the
    block's transactions and its stored [merkleRoot], always finds it
    valid, and shows a proof of [ceil(log2 n)] steps for a block of [n]
    transactions. *)
Theorem mined_transaction_verifies bc (b : Block) tx :
  reachable bc → b ∈ chain bc → tx ∈ transactions b →
  vd_valid (handleVerifyTransaction tx (transactions b) (merkleRoot (header b)))
  = true
  ∧ vd_txId (handleVerifyTransaction tx (transactions b) (merkleRoot (header b)))
    = id tx
  ∧ length (vd_proof (handleVerifyTransaction tx (transactions b)
                                               (merkleRoot (header b))))
    = Nat.log2_up (length (transactions b)).
Proof.
  intros Hr Hb Htx. unfold handleVerifyTransaction.
  cbn [vd_valid vd_txId vd_proof].
  assert (Hid : id tx ∈ map id (transactions b))
    by now apply list_elem_of_fmap_2.
  apply list_elem_of_lookup in Hb as [i Hb].
  destruct (reachable_chain_linked bc Hr i b Hb) as (Hi & _ & Hroot).
  destruct i as [|i].
  - (* the genesis block has no transaction *)
    destruct Hr as (now & calls & ->).
    destruct (chain_positions_genesis now calls) as [Hg _].
    rewrite Hg in Hb. injection Hb as <-. now apply elem_of_nil in Htx.
  - destruct Hroot as [-> _]; [lia|].
    split; [now apply present_target_verifies|]. split; [reflexivity|].
    unfold getMerkleProof. cbn zeta.
    destruct (findIndex (map id (transactions b)) (id tx)) as [j|] eqn:Hfind;
      [|apply findIndex_None in Hfind; contradiction].
    now rewrite proofLoop_length_log2, length_map.
Qed.

Lemma mined_transaction_verifies_witness :
  ∃ b : Block,
    chain (run 1700000000000
               [CallAddTransaction (sampleTx "a" "k1");
                CallAddTransaction (sampleTx "b" "k2");
                CallAddTransaction (sampleTx "c" "k1");
                CallMine 1700000000500 7]) !! 1 = Some b
    ∧ vd_valid (handleVerifyTransaction (sampleTx "c" "k1") (transactions b)
                                        (merkleRoot (header b))) = true.
Proof.
  eexists. split; [vm_compute; reflexivity|].
  refine (proj1 (mined_transaction_verifies
                   (run 1700000000000
                        [CallAddTransaction (sampleTx "a" "k1");
                         CallAddTransaction (sampleTx "b" "k2");
                         CallAddTransaction (sampleTx "c" "k1");
                         CallMine 1700000000500 7])
                   _ (sampleTx "c" "k1") _ _ _)).
  - eexists _, _. reflexivity.
  - apply list_elem_of_lookup. exists 1. vm_compute. reflexivity.
  - vm_compute. do 2 apply list_elem_of_further. apply list_elem_of_here.
Defined.

(** X15. [minePendingTransactions] is not idempotent: called twice in a
    row it appends two blocks, the second with no transaction, the hash of
    the empty string as [merkleRoot], the next [index], and the hash of the
    first as [previousHash]. *)
Theorem mining_twice (now1 pick1 now2 pick2 : Z) bc :
  chain bc ≠ [] →
  ∃ (b1 b2 : Block) (bc1 bc2 : Blockchain),
    minePendingTransactions now1 pick1 bc = Some (b1, bc1)
    ∧ minePendingTransactions now2 pick2 bc1 = Some (b2, bc2)
    ∧ chain bc2 = chain bc ++ [b1; b2]
    ∧ transactions b1 = pendingTransactions bc
    ∧ transactions b2 = []
    ∧ merkleRoot (header b2) = hashData ""
    ∧ previousHash (header b2) = hash b1
    ∧ index (header b2) = (index (header b1) + 1)%Z
    ∧ pendingTransactions bc2 = [].
Proof.
  intros Hne. unfold minePendingTransactions at 1.
  rewrite getLatestBlock_last.
  destruct (last (chain bc)) as [lastBlock|] eqn:Hlast;
    [|apply last_None in Hlast; contradiction].
  cbn zeta. eexists _, _, _, _. split; [reflexivity|].
  unfold minePendingTransactions. rewrite getLatestBlock_last.
  cbn [chain pendingTransactions]. rewrite last_snoc. cbn zeta.
  split; [reflexivity|]. cbn [chain transactions header merkleRoot
                                previousHash index hash pendingTransactions].
  split; [now rewrite <- app_assoc|].
  repeat (split; [reflexivity|]).
  split; [|reflexivity]. rewrite length_app. cbn [length]. lia.
Qed.

Lemma mining_twice_witness :
  ∃ (b1 b2 : Block) (bc1 bc2 : Blockchain),
    minePendingTransactions 1700000000500 7 (newBlockchain 1700000000000)
    = Some (b1, bc1)
    ∧ minePendingTransactions 1700000000900 8 bc1 = Some (b2, bc2)
    ∧ previousHash (header b2) = hash b1.
Proof.
  destruct (mining_twice 1700000000500 7 1700000000900 8
              (newBlockchain 1700000000000))
    as (b1 & b2 & bc1 & bc2 & H1 & H2 & _ & _ & _ & _ & Hlink & _).
  - discriminate.
  - exists b1, b2, bc1, bc2. exact (conj H1 (conj H2 Hlink)).
Defined.

(** X16. Revocation looks forward only: [revokeKey(k)] takes nothing out
    of the pool, and the block mined after it is the block that would have
    been mined before it, so a pooled transaction signed by [k] is still
    mined. *)
Theorem revocation_keeps_pooled_transactions
    (now pick : Z) bc tx :
  chain bc ≠ [] → tx ∈ pendingTransactions bc →
  ∃ (block : Block) (bc' bc'' : Blockchain),
    minePendingTransactions now pick (revokeKey (signerPublicKey tx) bc)
    = Some (block, bc')
    ∧ minePendingTransactions now pick bc = Some (block, bc'')
    ∧ tx ∈ transactions block
    ∧ signerPublicKey tx ∈ revokedKeys bc'
    ∧ bc' = revokeKey (signerPublicKey tx) bc''.
Proof.
  intros Hne Htx. unfold minePendingTransactions, getLatestBlock.
  cbn [revokeKey chain pendingTransactions revokedKeys].
  fold (getLatestBlock bc). rewrite getLatestBlock_last.
  destruct (last (chain bc)) as [lastBlock|] eqn:Hlast;
    [|apply last_None in Hlast; contradiction].
  cbn zeta. eexists _, _, _. split; [reflexivity|]. split; [reflexivity|].
  cbn [transactions revokedKeys]. split; [exact Htx|].
  split; [|reflexivity]. apply elem_of_union_l, elem_of_singleton_2.
  reflexivity.
Qed.

Lemma revocation_keeps_pooled_transactions_witness :
  ∃ (block : Block) (bc' : Blockchain),
    minePendingTransactions 1700000000500 7
      (revokeKey "k1"
         (snd (addTransaction (sampleTx "a" "k1")
                              (newBlockchain 1700000000000))))
    = Some (block, bc')
    ∧ sampleTx "a" "k1" ∈ transactions block.
Proof.
  destruct (revocation_keeps_pooled_transactions 1700000000500 7
              (snd (addTransaction (sampleTx "a" "k1")
                                   (newBlockchain 1700000000000)))
              (sampleTx "a" "k1"))
    as (block & bc' & _ & Hmine & _ & Hin & _).
  - discriminate.
  - apply list_elem_of_here.
  - exists block, bc'. exact (conj Hmine Hin).
Defined.

End LedgerInvariants.
